(** * testingclient: the error-injecting client decorator

    A shallow embedding of [pkg/client/testingclient/error.go]: the rule
    key, the rule table, the matcher [getStubbedError], the registration
    entry point [InjectError] and the decorator's client operations,
    written against the [Client] interface that the delegate implements
    as well. *)

From Stdlib Require Import NArith.
From stdpp Require Import base strings gmap list.

Open Scope string_scope.

(** ** Outcome of a Go call: a normal return or a panic *)

Inductive result (A : Type) : Type :=
  | Return (a : A)
  | Panic (v : string).

Arguments Return {A} a.
Arguments Panic {A} v.

Definition result_bind {A B : Type} (m : result A) (f : A → result B) : result B :=
  match m with
  | Return a => f a
  | Panic v => Panic v
  end.

#[global] Instance result_ret : MRet result := λ A a, Return a.
#[global] Instance result_mbind : MBind result := λ A B f m, result_bind m f.

(** ** Values of the imported packages *)

(** [schema.GroupVersionKind]. *)
Record GroupVersionKind : Type := {
  Group : string;
  Version : string;
  Kind : string
}.

(** [client.ObjectKey], that is [types.NamespacedName]. *)
Record ObjectKey : Type := {
  Namespace : string;
  Name : string
}.

(** What a [client.Object] points to, as far as this package looks at it:
    the namespace and name of its metadata, and the remaining fields. *)
Record ObjectData : Type := {
  metaNamespace : string;
  metaName : string;
  fields : list (string * string)
}.

(** A [client.Object] is an interface value holding a pointer: its dynamic
    type, the address it holds, and what is stored there. *)
Record Object : Type := {
  dynType : string;
  addr : N;
  pointee : ObjectData
}.

(** Go's [==] on two interface values that hold pointers: equal dynamic
    types and equal addresses.  What the two pointers point to is not
    looked at. *)
Definition interface_eqb (x y : Object) : bool :=
  String.eqb (dynType x) (dynType y) && N.eqb (addr x) (addr y).

(** Modelled from the spec: client.ObjectKeyFromObject is declared in
    pkg/client, outside the files at hand.  The identity of an object is
    the (namespace, name) pair of its metadata. *)
Definition ObjectKeyFromObject (obj : Object) : ObjectKey :=
  {| Namespace := metaNamespace (pointee obj); Name := metaName (pointee obj) |}.

(** ** Actions and rule keys *)

(** [type Action string]. *)
Definition Action : Type := string.

Definition GetAction : Action := "get".
Definition CreateAction : Action := "create".
Definition DeleteAction : Action := "delete".
Definition UpdateAction : Action := "update".
Definition PatchAction : Action := "patch".
Definition AnyAction : Action := "*".

Record resourceActionKey : Type := {
  action : Action;
  kind : GroupVersionKind;
  objectKey : ObjectKey
}.

#[global] Instance GroupVersionKind_eq_dec : EqDecision GroupVersionKind.
Proof. solve_decision. Defined.

#[global] Instance ObjectKey_eq_dec : EqDecision ObjectKey.
Proof. solve_decision. Defined.

#[global] Instance resourceActionKey_eq_dec : EqDecision resourceActionKey.
Proof. solve_decision. Defined.

Definition GroupVersionKind_to_tuple (g : GroupVersionKind) : string * string * string :=
  (Group g, Version g, Kind g).

Definition GroupVersionKind_of_tuple (t : string * string * string) : GroupVersionKind :=
  {| Group := t.1.1; Version := t.1.2; Kind := t.2 |}.

Definition ObjectKey_to_tuple (k : ObjectKey) : string * string :=
  (Namespace k, Name k).

Definition ObjectKey_of_tuple (t : string * string) : ObjectKey :=
  {| Namespace := t.1; Name := t.2 |}.

Definition resourceActionKey_to_tuple (k : resourceActionKey)
  : Action * GroupVersionKind * ObjectKey :=
  (action k, kind k, objectKey k).

Definition resourceActionKey_of_tuple (t : Action * GroupVersionKind * ObjectKey)
  : resourceActionKey :=
  {| action := t.1.1; kind := t.1.2; objectKey := t.2 |}.

Lemma GroupVersionKind_tuple_inv g :
  GroupVersionKind_of_tuple (GroupVersionKind_to_tuple g) = g.
Proof. by destruct g. Qed.

Lemma ObjectKey_tuple_inv k : ObjectKey_of_tuple (ObjectKey_to_tuple k) = k.
Proof. by destruct k. Qed.

Lemma resourceActionKey_tuple_inv k :
  resourceActionKey_of_tuple (resourceActionKey_to_tuple k) = k.
Proof. by destruct k. Qed.

#[global] Instance GroupVersionKind_countable : Countable GroupVersionKind :=
  inj_countable' GroupVersionKind_to_tuple GroupVersionKind_of_tuple
    GroupVersionKind_tuple_inv.

#[global] Instance ObjectKey_countable : Countable ObjectKey :=
  inj_countable' ObjectKey_to_tuple ObjectKey_of_tuple ObjectKey_tuple_inv.

#[global] Instance resourceActionKey_countable : Countable resourceActionKey :=
  inj_countable' resourceActionKey_to_tuple resourceActionKey_of_tuple
    resourceActionKey_tuple_inv.

(** The package-level sentinels. *)

(** The address of the [unstructured.Unstructured] allocated once for
    [AnyKind] when the package is initialised.  Every other live object
    sits at another address. *)
Definition AnyKind_addr : N := 1%N.

Definition emptyData : ObjectData :=
  {| metaNamespace := ""; metaName := ""; fields := [] |}.

Definition AnyKind : Object :=
  {| dynType := "*unstructured.Unstructured"; addr := AnyKind_addr; pointee := emptyData |}.

Definition AnyObject : ObjectKey := {| Namespace := ""; Name := "" |}.

Definition anyKindGVK : GroupVersionKind := {| Group := ""; Version := ""; Kind := "*" |}.

(** [func (a Action) IsValid() bool]: the switch compares [a] with the
    six listed constants. *)
Definition IsValid (a : Action) : bool :=
  if existsb (String.eqb a)
       [GetAction; CreateAction; DeleteAction; UpdateAction; PatchAction; AnyAction]
  then true
  else false.

(** ** What the package takes from its surroundings *)

(** The types of the imported packages that this file only hands on
    ([context.Context], [*runtime.Scheme], [meta.RESTMapper], the list,
    patch and status-writer types of [pkg/client], the per-call option
    types), the non-nil values of Go's [error], and the package's own
    helper [mustGVKForObject], whose file is not at hand: it resolves an
    object to its group-version-kind through the scheme, and panics when
    it cannot. *)
Class Environment : Type := {
  context_Context : Type;
  runtime_Scheme : Type;
  meta_RESTMapper : Type;
  client_ObjectList : Type;
  client_Patch : Type;
  client_StatusWriter : Type;
  client_ListOption : Type;
  client_CreateOption : Type;
  client_DeleteOption : Type;
  client_UpdateOption : Type;
  client_PatchOption : Type;
  client_DeleteAllOfOption : Type;
  error_value : Type;
  mustGVKForObject : Object → runtime_Scheme → result GroupVersionKind
}.

Section testingclient.

Context `{Env : Environment}.

(** Go's [error]: [None] is [nil], [Some e] a non-nil error value. *)
Definition error : Type := option error_value.

(** [client.Client].  A client is given by its state [C]; an operation
    takes the state and returns the state after it, the object (or list)
    as the call leaves it behind the caller's pointer, and the error.
    [Scheme] and [RESTMapper] are accessors. *)
Class Client (C : Type) : Type := {
  Scheme : C → runtime_Scheme;
  RESTMapper : C → meta_RESTMapper;
  Get : context_Context → ObjectKey → Object → C → result (C * Object * error);
  List : context_Context → client_ObjectList → list client_ListOption → C →
         result (C * client_ObjectList * error);
  Create : context_Context → Object → list client_CreateOption → C →
           result (C * Object * error);
  Delete : context_Context → Object → list client_DeleteOption → C →
           result (C * Object * error);
  Update : context_Context → Object → list client_UpdateOption → C →
           result (C * Object * error);
  Patch : context_Context → Object → client_Patch → list client_PatchOption → C →
          result (C * Object * error);
  DeleteAllOf : context_Context → Object → list client_DeleteAllOfOption → C →
                result (C * Object * error);
  Status : C → result (C * client_StatusWriter)
}.

(** [type ErrorInjector struct]. *)
Record ErrorInjector (D : Type) : Type := {
  delegate : D;
  errorsToReturn : gmap resourceActionKey error
}.

Arguments delegate {D} _.
Arguments errorsToReturn {D} _.

Context {D : Type} `{Cl : Client D}.

Definition NewErrorInjector (cl : D) : ErrorInjector D :=
  {| delegate := cl; errorsToReturn := ∅ |}.

Definition ErrorInjector_Scheme (c : ErrorInjector D) : runtime_Scheme :=
  Scheme (delegate c).

Definition ErrorInjector_RESTMapper (c : ErrorInjector D) : meta_RESTMapper :=
  RESTMapper (delegate c).

(** The eight keys of the literal in [getStubbedError], in its order. *)
Definition candidates (action : Action) (gvk : GroupVersionKind) (objectKey : ObjectKey)
  : list resourceActionKey :=
  [ {| action := action; kind := gvk; objectKey := objectKey |};
    {| action := action; kind := gvk; objectKey := AnyObject |};
    {| action := AnyAction; kind := gvk; objectKey := objectKey |};
    {| action := action; kind := anyKindGVK; objectKey := objectKey |};
    {| action := AnyAction; kind := gvk; objectKey := AnyObject |};
    {| action := action; kind := anyKindGVK; objectKey := AnyObject |};
    {| action := AnyAction; kind := anyKindGVK; objectKey := objectKey |};
    {| action := AnyAction; kind := anyKindGVK; objectKey := AnyObject |} ].

(** The [for _, k := range ...] loop of [getStubbedError]: the comma-ok
    lookup returns on the first key that is in the map, with whatever is
    stored there; after the last key the function returns [nil]. *)
Fixpoint probe (m : gmap resourceActionKey error) (ks : list resourceActionKey) : error :=
  match ks with
  | [] => None
  | k :: ks' =>
      match m !! k with
      | Some err => err
      | None => probe m ks'
      end
  end.

Definition getStubbedError (c : ErrorInjector D)
    (action : Action) (kind : Object) (objectKey : ObjectKey) : result error :=
  gvk ← mustGVKForObject kind (ErrorInjector_Scheme c);
  mret (probe (errorsToReturn c) (candidates action gvk objectKey)).

(** What a decorator operation hands back after the delegate has run:
    the injector around the delegate's new state, and the delegate's
    object and error as they are. *)
Definition forward {A : Type} (c : ErrorInjector D) (r : result (D * A * error))
  : result (ErrorInjector D * A * error) :=
  '(d, a, err) ← r;
  mret ({| delegate := d; errorsToReturn := errorsToReturn c |}, a, err).

Definition ErrorInjector_Get (ctx : context_Context) (key : ObjectKey) (obj : Object)
    (c : ErrorInjector D) : result (ErrorInjector D * Object * error) :=
  err ← getStubbedError c GetAction obj key;
  match err with
  | Some _ => mret (c, obj, err)
  | None => forward c (Get ctx key obj (delegate c))
  end.

Definition ErrorInjector_List (ctx : context_Context) (list_ : client_ObjectList)
    (opts : list client_ListOption) (c : ErrorInjector D)
  : result (ErrorInjector D * client_ObjectList * error) :=
  Panic "implement me".

Definition ErrorInjector_Create (ctx : context_Context) (obj : Object)
    (opts : list client_CreateOption) (c : ErrorInjector D)
  : result (ErrorInjector D * Object * error) :=
  err ← getStubbedError c CreateAction obj (ObjectKeyFromObject obj);
  match err with
  | Some _ => mret (c, obj, err)
  | None => forward c (Create ctx obj opts (delegate c))
  end.

Definition ErrorInjector_Delete (ctx : context_Context) (obj : Object)
    (opts : list client_DeleteOption) (c : ErrorInjector D)
  : result (ErrorInjector D * Object * error) :=
  err ← getStubbedError c DeleteAction obj (ObjectKeyFromObject obj);
  match err with
  | Some _ => mret (c, obj, err)
  | None => forward c (Delete ctx obj opts (delegate c))
  end.

Definition ErrorInjector_Update (ctx : context_Context) (obj : Object)
    (opts : list client_UpdateOption) (c : ErrorInjector D)
  : result (ErrorInjector D * Object * error) :=
  err ← getStubbedError c UpdateAction obj (ObjectKeyFromObject obj);
  match err with
  | Some _ => mret (c, obj, err)
  | None => forward c (Update ctx obj opts (delegate c))
  end.

Definition ErrorInjector_Patch (ctx : context_Context) (obj : Object)
    (patch : client_Patch) (opts : list client_PatchOption) (c : ErrorInjector D)
  : result (ErrorInjector D * Object * error) :=
  err ← getStubbedError c PatchAction obj (ObjectKeyFromObject obj);
  match err with
  | Some _ => mret (c, obj, err)
  | None => forward c (Patch ctx obj patch opts (delegate c))
  end.

Definition ErrorInjector_DeleteAllOf (ctx : context_Context) (obj : Object)
    (opts : list client_DeleteAllOfOption) (c : ErrorInjector D)
  : result (ErrorInjector D * Object * error) :=
  Panic "implement me".

Definition ErrorInjector_Status (c : ErrorInjector D)
  : result (ErrorInjector D * client_StatusWriter) :=
  Panic "implement me".

(** [var _ client.Client = ErrorInjector{}]. *)
#[global] Instance ErrorInjector_Client : Client (ErrorInjector D) := {|
  Scheme := ErrorInjector_Scheme;
  RESTMapper := ErrorInjector_RESTMapper;
  Get := ErrorInjector_Get;
  List := ErrorInjector_List;
  Create := ErrorInjector_Create;
  Delete := ErrorInjector_Delete;
  Update := ErrorInjector_Update;
  Patch := ErrorInjector_Patch;
  DeleteAllOf := ErrorInjector_DeleteAllOf;
  Status := ErrorInjector_Status
|}.

(** [func (c *ErrorInjector) InjectError]: the kind is compared with the
    [AnyKind] pointer and resolved through the scheme when it is another
    value; the map is written only for a valid action. *)
Definition InjectError (action : Action) (kind : Object) (objectKey : ObjectKey)
    (injectedError : error) (c : ErrorInjector D) : result (ErrorInjector D) :=
  gvk ← (if negb (interface_eqb kind AnyKind)
         then mustGVKForObject kind (ErrorInjector_Scheme c)
         else mret anyKindGVK);
  if IsValid action
  then mret {| delegate := delegate c;
               errorsToReturn :=
                 <[ {| action := action; kind := gvk; objectKey := objectKey |}
                    := injectedError ]> (errorsToReturn c) |}
  else mret c.

(** ** The intercepted calls, as a caller makes them *)

(** One constructor per intercepted operation, with the arguments the
    caller passes. *)
Inductive invocation : Type :=
  | CallGet (ctx : context_Context) (key : ObjectKey) (obj : Object)
  | CallCreate (ctx : context_Context) (obj : Object) (opts : list client_CreateOption)
  | CallDelete (ctx : context_Context) (obj : Object) (opts : list client_DeleteOption)
  | CallUpdate (ctx : context_Context) (obj : Object) (opts : list client_UpdateOption)
  | CallPatch (ctx : context_Context) (obj : Object) (patch : client_Patch)
              (opts : list client_PatchOption).

(** The action constant the operation passes to [getStubbedError]. *)
Definition call_action (i : invocation) : Action :=
  match i with
  | CallGet _ _ _ => GetAction
  | CallCreate _ _ _ => CreateAction
  | CallDelete _ _ _ => DeleteAction
  | CallUpdate _ _ _ => UpdateAction
  | CallPatch _ _ _ _ => PatchAction
  end.

(** The object whose type the operation has resolved. *)
Definition call_object (i : invocation) : Object :=
  match i with
  | CallGet _ _ obj => obj
  | CallCreate _ obj _ => obj
  | CallDelete _ obj _ => obj
  | CallUpdate _ obj _ => obj
  | CallPatch _ obj _ _ => obj
  end.

(** The identity the operation passes: [Get] its [key] argument, the
    others [client.ObjectKeyFromObject(obj)]. *)
Definition call_identity (i : invocation) : ObjectKey :=
  match i with
  | CallGet _ key _ => key
  | CallCreate _ obj _ => ObjectKeyFromObject obj
  | CallDelete _ obj _ => ObjectKeyFromObject obj
  | CallUpdate _ obj _ => ObjectKeyFromObject obj
  | CallPatch _ obj _ _ => ObjectKeyFromObject obj
  end.

(** The call made on the decorator. *)
Definition invoke (i : invocation) (c : ErrorInjector D)
  : result (ErrorInjector D * Object * error) :=
  match i with
  | CallGet ctx key obj => ErrorInjector_Get ctx key obj c
  | CallCreate ctx obj opts => ErrorInjector_Create ctx obj opts c
  | CallDelete ctx obj opts => ErrorInjector_Delete ctx obj opts c
  | CallUpdate ctx obj opts => ErrorInjector_Update ctx obj opts c
  | CallPatch ctx obj patch opts => ErrorInjector_Patch ctx obj patch opts c
  end.

(** The same call, with the same arguments, made on the delegate. *)
Definition invoke_delegate (i : invocation) (d : D) : result (D * Object * error) :=
  match i with
  | CallGet ctx key obj => Get ctx key obj d
  | CallCreate ctx obj opts => Create ctx obj opts d
  | CallDelete ctx obj opts => Delete ctx obj opts d
  | CallUpdate ctx obj opts => Update ctx obj opts d
  | CallPatch ctx obj patch opts => Patch ctx obj patch opts d
  end.

(** The pass-through of the specification: the call goes to the delegate
    as it is, and what the delegate returns is returned; the rule table
    stays as it was. *)
Definition passThrough (i : invocation) (c : ErrorInjector D)
  : result (ErrorInjector D * Object * error) :=
  match invoke_delegate i (delegate c) with
  | Return (d, obj, err) =>
      Return ({| delegate := d; errorsToReturn := errorsToReturn c |}, obj, err)
  | Panic v => Panic v
  end.

(** ** Vocabulary for the statements about registration *)

(** The injector after a write of [e] under the key (a, T, I). *)
Definition withRule (a : Action) (T : GroupVersionKind) (I : ObjectKey)
    (e : error) (c : ErrorInjector D) : ErrorInjector D :=
  {| delegate := delegate c;
     errorsToReturn :=
       <[ {| action := a; kind := T; objectKey := I |} := e ]> (errorsToReturn c) |}.

(** The kind under which [InjectError] files an object: the wildcard for
    the [AnyKind] pointer, the scheme's answer for every other value. *)
Definition filedUnder (kind : Object) (c : ErrorInjector D) (T : GroupVersionKind)
  : Prop :=
  (interface_eqb kind AnyKind = true ∧ T = anyKindGVK) ∨
  (interface_eqb kind AnyKind = false ∧
   mustGVKForObject kind (ErrorInjector_Scheme c) = Return T).

End testingclient.

Arguments delegate {Env D} _.
Arguments errorsToReturn {Env D} _.

(** ** A concrete environment and a recording delegate *)

(** Modelled from the spec: mustGVKForObject is declared in another file
    of the package.  The identifier is resolved from the object's
    concrete type via the registry, and resolution fails loudly, with a
    panic, when the type is unknown to the registry. *)
Definition schemeGVKForObject (obj : Object) (scheme : list (string * GroupVersionKind))
  : result GroupVersionKind :=
  match find (λ entry, String.eqb (fst entry) (dynType obj)) scheme with
  | Some entry => Return (snd entry)
  | None => Panic "no kind is registered for the type"
  end.

(** Schemes are registries from Go types to kinds, option values are
    their names, error values their messages. *)
Definition testEnv : Environment := {|
  context_Context := unit;
  runtime_Scheme := list (string * GroupVersionKind);
  meta_RESTMapper := unit;
  client_ObjectList := list Object;
  client_Patch := string;
  client_StatusWriter := unit;
  client_ListOption := string;
  client_CreateOption := string;
  client_DeleteOption := string;
  client_UpdateOption := string;
  client_PatchOption := string;
  client_DeleteAllOfOption := string;
  error_value := string;
  mustGVKForObject := schemeGVKForObject
|}.

(** A call as the recording delegate has seen it. *)
Inductive seen : Type :=
  | SeenGet (key : ObjectKey) (obj : Object)
  | SeenList (opts : list string)
  | SeenCreate (obj : Object) (opts : list string)
  | SeenDelete (obj : Object) (opts : list string)
  | SeenUpdate (obj : Object) (opts : list string)
  | SeenPatch (obj : Object) (patch : string) (opts : list string)
  | SeenDeleteAllOf (obj : Object) (opts : list string)
  | SeenStatus.

(** A delegate that records every operation invoked on it and answers
    each with the same error. *)
Record recorder : Type := {
  registry : list (string * GroupVersionKind);
  calls : list seen;
  answer : option string
}.

Definition record (s : seen) (r : recorder) : recorder :=
  {| registry := registry r; calls := calls r ++ [s]; answer := answer r |}.

#[global] Instance recorder_Client : @Client testEnv recorder :=
  @Build_Client testEnv recorder
    registry
    (λ _, tt)
    (λ _ key obj r, Return (record (SeenGet key obj) r, obj, answer r))
    (λ _ l opts r, Return (record (SeenList opts) r, l, answer r))
    (λ _ obj opts r, Return (record (SeenCreate obj opts) r, obj, answer r))
    (λ _ obj opts r, Return (record (SeenDelete obj opts) r, obj, answer r))
    (λ _ obj opts r, Return (record (SeenUpdate obj opts) r, obj, answer r))
    (λ _ obj patch opts r, Return (record (SeenPatch obj patch opts) r, obj, answer r))
    (λ _ obj opts r, Return (record (SeenDeleteAllOf obj opts) r, obj, answer r))
    (λ r, Return (record SeenStatus r, tt)).

Definition deploymentGVK : GroupVersionKind :=
  {| Group := "apps"; Version := "v1"; Kind := "Deployment" |}.

Definition configMapGVK : GroupVersionKind :=
  {| Group := ""; Version := "v1"; Kind := "ConfigMap" |}.

(** The scheme of the tests: core and apps types are registered. *)
Definition testScheme : list (string * GroupVersionKind) :=
  [("*appsv1.Deployment", deploymentGVK); ("*corev1.ConfigMap", configMapGVK)].

Definition dep3 : Object :=
  {| dynType := "*appsv1.Deployment"; addr := 16%N;
     pointee := {| metaNamespace := "ns1"; metaName := "test-deployment-3"; fields := [] |} |}.

Definition dep2 : Object :=
  {| dynType := "*appsv1.Deployment"; addr := 32%N;
     pointee := {| metaNamespace := "ns1"; metaName := "test-deployment-2";
                   fields := [("test-label", "label-value")] |} |}.

Definition cm1 : Object :=
  {| dynType := "*corev1.ConfigMap"; addr := 48%N;
     pointee := {| metaNamespace := "ns2"; metaName := "test-cm1";
                   fields := [("test-key", "test-value")] |} |}.

(** A second, freshly allocated empty [unstructured.Unstructured]: the
    same dynamic type and the same contents as [AnyKind], held at
    another address. *)
Definition otherEmptyUnstructured : Object :=
  {| dynType := "*unstructured.Unstructured"; addr := 64%N; pointee := emptyData |}.

(** A delegate that has seen no call and answers with the given error. *)
Definition freshRecorder (err : option string) : recorder :=
  {| registry := testScheme; calls := []; answer := err |}.

Definition testError : @error testEnv := Some "test error".

(** An object of a type that nobody has added to the scheme. *)
Definition widget : Object :=
  {| dynType := "*examplev1.Widget"; addr := 80%N;
     pointee := {| metaNamespace := "ns1"; metaName := "test-widget"; fields := [] |} |}.

(** An injector over the recording delegate with the given rule table;
    the delegate answers every call with the error [err]. *)
Definition injectorWith (err : option string)
    (table : gmap resourceActionKey (@error testEnv))
  : @ErrorInjector testEnv recorder :=
  {| delegate := freshRecorder err; errorsToReturn := table |}.

(** The exact key of a create of [dep3]. *)
Definition createDep3 : resourceActionKey :=
  {| action := CreateAction; kind := deploymentGVK; objectKey := ObjectKeyFromObject dep3 |}.

(** ** Vocabulary for matching and specificity *)

(** A key matches a call when each of its three parts is the call's own
    or the wildcard of that part, as the comment on [InjectError] lists
    them. *)
Definition matchesb (k : resourceActionKey)
    (K : Action) (T : GroupVersionKind) (I : ObjectKey) : bool :=
  (bool_decide (action k = K) || bool_decide (action k = AnyAction)) &&
  (bool_decide (kind k = T) || bool_decide (kind k = anyKindGVK)) &&
  (bool_decide (objectKey k = I) || bool_decide (objectKey k = AnyObject)).

(** The number of wildcard parts of a key, as the comments beside the
    literal of [getStubbedError] count them. *)
Definition wildcards (k : resourceActionKey) : nat :=
  (if bool_decide (action k = AnyAction) then 1 else 0) +
  (if bool_decide (kind k = anyKindGVK) then 1 else 0) +
  (if bool_decide (objectKey k = AnyObject) then 1 else 0).

Section vocabulary.

Context `{Env : Environment} {D : Type}.

(** The injector [c] with the rule table of [c']: what differs between
    the results of one call made before and after a registration. *)
Definition withTableOf (c' c : ErrorInjector D) : ErrorInjector D :=
  {| delegate := delegate c; errorsToReturn := errorsToReturn c' |}.

(** The result of a call, with the rule table of [c'] in the injector it
    hands back. *)
Definition resultWithTableOf {A : Type} (c' : ErrorInjector D)
    (r : result (ErrorInjector D * A * error)) : result (ErrorInjector D * A * error) :=
  match r with
  | Return (c, a, err) => Return (withTableOf c' c, a, err)
  | Panic v => Panic v
  end.

End vocabulary.

(** * Properties *)

(** ** The probing loop *)

Section probing.

Context `{Env : Environment}.

Implicit Types (m : gmap resourceActionKey error) (ks : list resourceActionKey).

Lemma probe_miss m ks :
  (∀ k, k ∈ ks → m !! k = None) → probe m ks = None.
Proof.
  induction ks as [|k ks IH]; intros Hnone; [done|].
  cbn. rewrite Hnone by left. apply IH. intros k' Hk'. apply Hnone. by right.
Qed.

Lemma probe_hit m ks i k err :
  ks !! i = Some k →
  m !! k = Some err →
  (∀ j k', j < i → ks !! j = Some k' → m !! k' = None) →
  probe m ks = err.
Proof.
  revert i. induction ks as [|k0 ks IH]; intros i Hi Hk Hbefore; [done|].
  destruct i as [|i]; cbn in *.
  - injection Hi as ->. by rewrite Hk.
  - rewrite (Hbefore 0 k0) by (done || lia).
    apply (IH i); [done..|].
    intros j k' Hj Hk'. apply (Hbefore (S j) k'); [lia|done].
Qed.

Lemma probe_ext m1 m2 ks :
  (∀ k, k ∈ ks → m1 !! k = m2 !! k) → probe m1 ks = probe m2 ks.
Proof.
  induction ks as [|k ks IH]; intros Heq; [done|].
  cbn. rewrite (Heq k) by left.
  destruct (m2 !! k); [done|]. apply IH. intros k' Hk'. apply Heq. by right.
Qed.

(** The loop returns what is stored at the first key found, or [nil]. *)
Lemma probe_spec m ks :
  (probe m ks = None ∧ ∀ k, k ∈ ks → m !! k = None) ∨
  (∃ i k, ks !! i = Some k ∧ m !! k = Some (probe m ks) ∧
          ∀ j k', j < i → ks !! j = Some k' → m !! k' = None).
Proof.
  induction ks as [|k0 ks IH]; cbn.
  - left. split; [done|]. intros k Hk. by apply elem_of_nil in Hk.
  - destruct (m !! k0) as [err|] eqn:Hk0.
    + right. exists 0, k0. split_and!; [done..|]. intros j k' Hj. lia.
    + destruct IH as [[Hnone Hall]|(i & k & Hi & Hk & Hbefore)].
      * left. split; [done|]. intros k Hk.
        apply elem_of_cons in Hk as [->|Hk]; [done|by apply Hall].
      * right. exists (S i), k. split_and!; [done..|].
        intros [|j] k' Hj Hk'; cbn in Hk'.
        -- by injection Hk' as <-.
        -- apply (Hbefore j); [lia|done].
Qed.

End probing.

(** ** The matcher and the operations built on it *)

Section matching.

Context `{Env : Environment} {D : Type} `{!Client D}.

Implicit Types (c : ErrorInjector D) (i : invocation).

Lemma getStubbedError_resolved c K obj T I :
  mustGVKForObject obj (ErrorInjector_Scheme c) = Return T →
  getStubbedError c K obj I = Return (probe (errorsToReturn c) (candidates K T I)).
Proof. intros HT. unfold getStubbedError. by rewrite HT. Qed.

Lemma getStubbedError_unresolved c K obj I v :
  mustGVKForObject obj (ErrorInjector_Scheme c) = Panic v →
  getStubbedError c K obj I = Panic v.
Proof. intros HT. unfold getStubbedError. by rewrite HT. Qed.

(** Every intercepted operation is the matcher on the operation's own
    triple, then either the stored error or the delegate. *)
Lemma invoke_unfold i c :
  invoke i c =
  match getStubbedError c (call_action i) (call_object i) (call_identity i) with
  | Return (Some e) => Return (c, call_object i, Some e)
  | Return None => passThrough i c
  | Panic v => Panic v
  end.
Proof.
  destruct i; cbn;
    unfold ErrorInjector_Get, ErrorInjector_Create, ErrorInjector_Delete,
      ErrorInjector_Update, ErrorInjector_Patch, passThrough, forward; cbn.
  all: destruct (getStubbedError _ _ _ _) as [[e|]|v]; cbn; [done| |done].
  - by destruct (Get _ _ _ _) as [[[d o] e]|v].
  - by destruct (Create _ _ _ _) as [[[d o] e]|v].
  - by destruct (Delete _ _ _ _) as [[[d o] e]|v].
  - by destruct (Update _ _ _ _) as [[[d o] e]|v].
  - by destruct (Patch _ _ _ _ _) as [[[d o] e]|v].
Qed.

Lemma invoke_stubbed i c e :
  getStubbedError c (call_action i) (call_object i) (call_identity i) = Return (Some e) →
  invoke i c = Return (c, call_object i, Some e).
Proof. intros H. by rewrite invoke_unfold, H. Qed.

Lemma invoke_passed i c :
  getStubbedError c (call_action i) (call_object i) (call_identity i) = Return None →
  invoke i c = passThrough i c.
Proof. intros H. by rewrite invoke_unfold, H. Qed.

(** A type the scheme cannot resolve stops the operation before the
    table or the delegate is consulted. *)
Lemma invoke_unresolved i c v :
  mustGVKForObject (call_object i) (ErrorInjector_Scheme c) = Panic v →
  invoke i c = Panic v.
Proof.
  intros HT. rewrite invoke_unfold.
  by rewrite (getStubbedError_unresolved _ _ _ _ v HT).
Qed.

Lemma invoke_no_candidate i c T :
  mustGVKForObject (call_object i) (ErrorInjector_Scheme c) = Return T →
  (∀ k, k ∈ candidates (call_action i) T (call_identity i) →
        errorsToReturn c !! k = None) →
  invoke i c = passThrough i c.
Proof.
  intros HT Hnone. apply invoke_passed.
  rewrite (getStubbedError_resolved _ _ _ T) by done.
  f_equal. by apply probe_miss.
Qed.

Lemma invoke_first_candidate i c T n k err :
  mustGVKForObject (call_object i) (ErrorInjector_Scheme c) = Return T →
  candidates (call_action i) T (call_identity i) !! n = Some k →
  errorsToReturn c !! k = Some err →
  (∀ j k', j < n → candidates (call_action i) T (call_identity i) !! j = Some k' →
           errorsToReturn c !! k' = None) →
  getStubbedError c (call_action i) (call_object i) (call_identity i) = Return err ∧
  invoke i c = match err with
               | Some e => Return (c, call_object i, Some e)
               | None => passThrough i c
               end.
Proof.
  intros HT Hn Hk Hbefore.
  assert (getStubbedError c (call_action i) (call_object i) (call_identity i)
          = Return err) as Hget.
  { rewrite (getStubbedError_resolved _ _ _ T) by done.
    f_equal. by eapply probe_hit. }
  split; [done|]. rewrite invoke_unfold, Hget. by destruct err.
Qed.

End matching.

(** ** What a registration does *)

Section registering.

Context `{Env : Environment} {D : Type} `{!Client D}.

Implicit Types (c : ErrorInjector D) (e : error).

Lemma InjectError_filed a kind I e c T :
  filedUnder kind c T →
  InjectError a kind I e c = Return (if IsValid a then withRule a T I e c else c).
Proof.
  unfold InjectError, withRule.
  intros [[-> ->]|[-> ->]]; cbn; by destruct (IsValid a).
Qed.

Lemma InjectError_Return_inv a kind I e c c' :
  InjectError a kind I e c = Return c' →
  ∃ T, filedUnder kind c T ∧ c' = if IsValid a then withRule a T I e c else c.
Proof.
  unfold InjectError, filedUnder, withRule.
  destruct (interface_eqb kind AnyKind); cbn.
  - destruct (IsValid a); intros [= <-]; exists anyKindGVK; auto.
  - destruct (mustGVKForObject kind (ErrorInjector_Scheme c)) as [T|v]; cbn; [|done].
    destruct (IsValid a); intros [= <-]; exists T; auto.
Qed.

Lemma InjectError_Panic_inv a kind I e c v :
  InjectError a kind I e c = Panic v →
  interface_eqb kind AnyKind = false ∧
  mustGVKForObject kind (ErrorInjector_Scheme c) = Panic v.
Proof.
  unfold InjectError.
  destruct (interface_eqb kind AnyKind); cbn.
  - by destruct (IsValid a).
  - destruct (mustGVKForObject kind (ErrorInjector_Scheme c)) as [T|v']; cbn.
    + by destruct (IsValid a).
    + by intros [= ->].
Qed.

End registering.

(** ** The matcher *)

(** C1.  For a call triple (K, T, I) with K a concrete action, the
    matcher probes the table with the eight keys (K,T,I), (K,T,Any),
    (Any,T,I), (K,Any,I), (Any,T,Any), (K,Any,Any), (Any,Any,I),
    (Any,Any,Any) in this order: the first of them that is in the table
    gives the returned error, whatever the later ones hold; when none is
    in the table the matcher returns nil, which is its "no match"; and no
    other key of the table is looked at.  In particular a rule at (K,T,I)
    wins over one at (K,T,Any), and when the table holds only rules at
    (K,T,Any) and (Any,T,I) the one at (K,T,Any) wins. *)
Theorem getStubbedError_probe_order `{Env : Environment} {D : Type} `{!Client D}
    (c : ErrorInjector D) (K : Action) (obj : Object)
    (T : GroupVersionKind) (I : ObjectKey) :
  K ≠ AnyAction →
  mustGVKForObject obj (ErrorInjector_Scheme c) = Return T →
  candidates K T I =
    [ {| action := K; kind := T; objectKey := I |};
      {| action := K; kind := T; objectKey := AnyObject |};
      {| action := AnyAction; kind := T; objectKey := I |};
      {| action := K; kind := anyKindGVK; objectKey := I |};
      {| action := AnyAction; kind := T; objectKey := AnyObject |};
      {| action := K; kind := anyKindGVK; objectKey := AnyObject |};
      {| action := AnyAction; kind := anyKindGVK; objectKey := I |};
      {| action := AnyAction; kind := anyKindGVK; objectKey := AnyObject |} ] ∧
  (∀ n k err,
     candidates K T I !! n = Some k →
     errorsToReturn c !! k = Some err →
     (∀ j k', j < n → candidates K T I !! j = Some k' → errorsToReturn c !! k' = None) →
     getStubbedError c K obj I = Return err) ∧
  ((∀ k, k ∈ candidates K T I → errorsToReturn c !! k = None) →
   getStubbedError c K obj I = Return None) ∧
  (∀ c' : ErrorInjector D,
     delegate c' = delegate c →
     (∀ k, k ∈ candidates K T I → errorsToReturn c' !! k = errorsToReturn c !! k) →
     getStubbedError c' K obj I = getStubbedError c K obj I) ∧
  (∀ e1 e2,
     errorsToReturn c !! {| action := K; kind := T; objectKey := I |} = Some e1 →
     errorsToReturn c !! {| action := K; kind := T; objectKey := AnyObject |} = Some e2 →
     getStubbedError c K obj I = Return e1) ∧
  (∀ e2 e3,
     errorsToReturn c =
       <[ {| action := K; kind := T; objectKey := AnyObject |} := e2 ]>
         (<[ {| action := AnyAction; kind := T; objectKey := I |} := e3 ]> ∅) →
     getStubbedError c K obj I = Return e2).
Proof.
  intros HK HT. rewrite (getStubbedError_resolved c K obj T I HT).
  split_and!.
  - reflexivity.
  - intros n k err Hn Hk Hbefore. f_equal. by eapply probe_hit.
  - intros Hnone. f_equal. by apply probe_miss.
  - intros c' Hd Heq.
    rewrite (getStubbedError_resolved c' K obj T I)
      by (unfold ErrorInjector_Scheme in *; by rewrite Hd).
    f_equal. by apply probe_ext.
  - intros e1 e2 H1 _. unfold candidates. cbn [probe]. by rewrite H1.
  - intros e2 e3 ->. f_equal. unfold candidates. cbn [probe].
    destruct (decide (I = AnyObject)) as [->|HI].
    + by rewrite lookup_insert_eq.
    + assert (<[ {| action := K; kind := T; objectKey := AnyObject |} := e2 ]>
                (<[ {| action := AnyAction; kind := T; objectKey := I |} := e3 ]>
                   (∅ : gmap resourceActionKey error))
              !! {| action := K; kind := T; objectKey := I |} = None) as ->.
      { rewrite lookup_insert_ne by congruence.
        rewrite lookup_insert_ne by congruence. apply lookup_empty. }
      by rewrite lookup_insert_eq.
Qed.

Lemma getStubbedError_probe_order_witness :
  CreateAction ≠ AnyAction ∧
  getStubbedError
    (injectorWith None
       (<[ {| action := CreateAction; kind := deploymentGVK;
              objectKey := ObjectKeyFromObject dep3 |} := Some "exact" ]>
          (<[ {| action := CreateAction; kind := deploymentGVK;
                 objectKey := AnyObject |} := Some "any object" ]> ∅)))
    CreateAction dep3 (ObjectKeyFromObject dep3)
  = Return (Some "exact").
Proof.
  split; [discriminate|].
  refine (proj1 (proj2 (proj2 (proj2 (proj2
            (getStubbedError_probe_order (injectorWith None _) CreateAction dep3
               deploymentGVK (ObjectKeyFromObject dep3) _ _)))))
            (Some "exact") (Some "any object") _ _).
  - discriminate.
  - reflexivity.
  - apply lookup_insert_eq.
  - etrans; [apply lookup_insert_ne; discriminate|apply lookup_insert_eq].
Defined.

(** ** The intercepted operations *)

(** The claim of C2 fails for a rule that stores nil: after
    [InjectError(CreateAction, dep3, key(dep3), nil)] the exact rule is in
    the table, yet [Create(dep3)] reaches the delegate, which records the
    call, and the caller gets the delegate's error instead of the
    registered nil. *)
Lemma Create_with_nil_rule_reaches_delegate :
  InjectError (Env:=testEnv) CreateAction dep3 (ObjectKeyFromObject dep3) None
    (NewErrorInjector (freshRecorder (Some "already exists")))
  = Return (injectorWith (Some "already exists") (<[ createDep3 := None ]> ∅)) ∧
  errorsToReturn (injectorWith (Some "already exists") (<[ createDep3 := None ]> ∅))
    !! createDep3 = Some None ∧
  ErrorInjector_Create (Env:=testEnv) tt dep3 []
    (injectorWith (Some "already exists") (<[ createDep3 := None ]> ∅))
  = Return ({| delegate := {| registry := testScheme;
                              calls := [SeenCreate dep3 []];
                              answer := Some "already exists" |};
               errorsToReturn := <[ createDep3 := None ]> ∅ |},
            dep3, Some "already exists").
Proof.
  split_and!.
  - reflexivity.
  - apply lookup_insert_eq.
  - unfold ErrorInjector_Create.
    rewrite (getStubbedError_resolved _ _ _ deploymentGVK) by reflexivity.
    unfold candidates. cbn [probe].
    change {| action := CreateAction; kind := deploymentGVK;
              objectKey := ObjectKeyFromObject dep3 |} with createDep3.
    cbn [errorsToReturn injectorWith].
    rewrite lookup_insert_eq. reflexivity.
Qed.

(** C2, amended.  For every exact rule (K, T, I) in the table that maps
    to a non-nil error, the operation K (Get, Create, Delete, Update or
    Patch) on an object of type T with identity I returns exactly that
    error; the injector it leaves behind is the one it found, so no
    operation of the delegate has run (the delegate is only asked for its
    scheme, to resolve the type) and the rule table is as before; and the
    caller's object is as the caller passed it. *)
Theorem exact_rule_short_circuits `{Env : Environment} {D : Type} `{!Client D}
    (c : ErrorInjector D) (i : invocation) (T : GroupVersionKind) (e : error_value) :
  mustGVKForObject (call_object i) (ErrorInjector_Scheme c) = Return T →
  errorsToReturn c
    !! {| action := call_action i; kind := T; objectKey := call_identity i |}
  = Some (Some e) →
  invoke i c = Return (c, call_object i, Some e).
Proof.
  intros HT Hrule. apply invoke_stubbed.
  rewrite (getStubbedError_resolved _ _ _ T) by done.
  f_equal. eapply (probe_hit _ _ 0); [reflexivity|exact Hrule|].
  intros j k' Hj. lia.
Qed.

Lemma exact_rule_short_circuits_witness :
  ErrorInjector_Create (Env:=testEnv) tt dep3 ["DryRunAll"]
    (injectorWith None (<[ createDep3 := testError ]> ∅))
  = Return (injectorWith None (<[ createDep3 := testError ]> ∅), dep3, testError).
Proof.
  apply (exact_rule_short_circuits
           (injectorWith None (<[ createDep3 := testError ]> ∅))
           (CallCreate (Env:=testEnv) tt dep3 ["DryRunAll"]) deploymentGVK "test error").
  - reflexivity.
  - apply lookup_insert_eq.
Defined.

(** The claim of C3 fails for an object whose type the scheme cannot
    resolve: with an empty rule table, [Get] on the decorator panics while
    building the key, and the delegate, which would have answered, is
    never called. *)
Lemma Get_of_unresolved_type_panics_without_rules :
  errorsToReturn (NewErrorInjector (Env:=testEnv) (freshRecorder None)) = ∅ ∧
  ErrorInjector_Get (Env:=testEnv) tt (ObjectKeyFromObject widget) widget
    (NewErrorInjector (freshRecorder None))
  = Panic "no kind is registered for the type" ∧
  Get (Env:=testEnv) tt (ObjectKeyFromObject widget) widget (freshRecorder None)
  = Return ({| registry := testScheme;
               calls := [SeenGet (ObjectKeyFromObject widget) widget];
               answer := None |}, widget, None).
Proof. split_and!; reflexivity. Qed.

(** C3, amended.  For every call whose object's type the scheme resolves
    and on which no rule matches (none of the eight candidate keys is in
    the table; in particular whenever the table is empty), the decorator
    makes the same call on the delegate, with the arguments and options
    it was given, and returns the delegate's object and error, or its
    panic, unchanged; the rule table stays as it was.  A decorator with
    no rules does on such calls what the delegate does, for Get, Create,
    Update, Delete and Patch. *)
Theorem no_match_passes_through `{Env : Environment} {D : Type} `{!Client D}
    (c : ErrorInjector D) (i : invocation) (T : GroupVersionKind) :
  mustGVKForObject (call_object i) (ErrorInjector_Scheme c) = Return T →
  ((∀ k, k ∈ candidates (call_action i) T (call_identity i) →
         errorsToReturn c !! k = None) →
   invoke i c = passThrough i c) ∧
  (errorsToReturn c = ∅ → invoke i c = passThrough i c) ∧
  (∀ d' obj' err,
     invoke_delegate i (delegate c) = Return (d', obj', err) →
     passThrough i c
     = Return ({| delegate := d'; errorsToReturn := errorsToReturn c |}, obj', err)) ∧
  (∀ v, invoke_delegate i (delegate c) = Panic v → passThrough i c = Panic v).
Proof.
  intros HT.
  split_and!.
  - by apply invoke_no_candidate.
  - intros Hempty. apply (invoke_no_candidate i c T HT).
    intros k _. rewrite Hempty. apply lookup_empty.
  - intros d' obj' err Hd. unfold passThrough. by rewrite Hd.
  - intros v Hd. unfold passThrough. by rewrite Hd.
Qed.

Lemma no_match_passes_through_witness :
  ErrorInjector_Update (Env:=testEnv) tt dep2 [] (NewErrorInjector (freshRecorder None))
  = Return ({| delegate := {| registry := testScheme;
                              calls := [SeenUpdate dep2 []];
                              answer := None |};
               errorsToReturn := ∅ |}, dep2, None).
Proof.
  destruct (no_match_passes_through
              (NewErrorInjector (freshRecorder None))
              (CallUpdate (Env:=testEnv) tt dep2 []) deploymentGVK)
    as (_ & Hempty & _); [reflexivity|].
  etrans; [apply Hempty|]; reflexivity.
Defined.

(** ** Registration through InjectError *)

(** C4.  [InjectError] with an action that fails [IsValid] leaves the
    rule table as it was: the call returns the injector unchanged (it has
    no result value to signal anything with) whenever the kind is
    [AnyKind] or resolves through the scheme, and otherwise panics in the
    type resolution, before any write.  So every later call behaves as it
    would have without the attempted registration, and after such an
    attempt on a new injector a call is passed to the delegate. *)
Theorem InjectError_invalid_action_is_noop `{Env : Environment} {D : Type} `{!Client D}
    (a : Action) (kind : Object) (I : ObjectKey) (e : error) (c : ErrorInjector D) :
  IsValid a = false →
  (∀ T, filedUnder kind c T → InjectError a kind I e c = Return c) ∧
  (InjectError a kind I e c = Return c ∨
   ∃ v, InjectError a kind I e c = Panic v ∧
        mustGVKForObject kind (ErrorInjector_Scheme c) = Panic v) ∧
  (∀ c', InjectError a kind I e c = Return c' →
         errorsToReturn c' = errorsToReturn c ∧
         ∀ i, invoke i c' = invoke i c) ∧
  (∀ c' i T,
     errorsToReturn c = ∅ →
     InjectError a kind I e c = Return c' →
     mustGVKForObject (call_object i) (ErrorInjector_Scheme c') = Return T →
     invoke i c' = passThrough i c').
Proof.
  intros Ha.
  assert (∀ c', InjectError a kind I e c = Return c' → c' = c) as Hsame.
  { intros c' (T & _ & ->)%InjectError_Return_inv. by rewrite Ha. }
  split_and!.
  - intros T HT. rewrite (InjectError_filed _ _ _ _ _ T HT). by rewrite Ha.
  - destruct (InjectError a kind I e c) as [c'|v] eqn:Hres.
    + left. by rewrite (Hsame c' eq_refl).
    + right. exists v. split; [done|]. by apply InjectError_Panic_inv in Hres as [_ ?].
  - intros c' ->%Hsame. done.
  - intros c' i T Hempty ->%Hsame HT.
    apply (invoke_no_candidate i c T HT).
    intros k _. rewrite Hempty. apply lookup_empty.
Qed.

Lemma InjectError_invalid_action_is_noop_witness :
  IsValid "" = false ∧
  InjectError (Env:=testEnv) "" dep3 (ObjectKeyFromObject dep3) testError
    (injectorWith None ∅)
  = Return (injectorWith None ∅).
Proof.
  split; [reflexivity|].
  apply (proj1 (InjectError_invalid_action_is_noop (Env:=testEnv)
                  "" dep3 (ObjectKeyFromObject dep3) testError
                  (injectorWith None ∅) eq_refl) deploymentGVK).
  right. split; reflexivity.
Defined.

(** C5.  Registering a rule key k (a valid action, a kind, an identity)
    with e1 and then again with e2 leaves the table of the start with e2
    written at k: nothing of e1 remains, and whatever was at k before is
    overwritten without being looked at.  A later call for which k is the
    first candidate in the table gets e2 from the matcher; the operation
    then returns e2 when it is an error, and goes on to the delegate when
    it is nil. *)
Theorem InjectError_last_write_wins `{Env : Environment} {D : Type} `{!Client D}
    (a : Action) (kind : Object) (I : ObjectKey) (e1 e2 : error)
    (c c1 : ErrorInjector D) :
  IsValid a = true →
  InjectError a kind I e1 c = Return c1 →
  ∃ T,
    filedUnder kind c T ∧
    c1 = withRule a T I e1 c ∧
    InjectError a kind I e2 c1 = Return (withRule a T I e2 c) ∧
    errorsToReturn (withRule a T I e2 c)
      !! {| action := a; kind := T; objectKey := I |} = Some e2 ∧
    (∀ i T' n,
       mustGVKForObject (call_object i) (ErrorInjector_Scheme (withRule a T I e2 c))
       = Return T' →
       candidates (call_action i) T' (call_identity i) !! n
       = Some {| action := a; kind := T; objectKey := I |} →
       (∀ j k', j < n →
                candidates (call_action i) T' (call_identity i) !! j = Some k' →
                errorsToReturn (withRule a T I e2 c) !! k' = None) →
       getStubbedError (withRule a T I e2 c)
         (call_action i) (call_object i) (call_identity i) = Return e2 ∧
       invoke i (withRule a T I e2 c)
       = match e2 with
         | Some e => Return (withRule a T I e2 c, call_object i, Some e)
         | None => passThrough i (withRule a T I e2 c)
         end).
Proof.
  intros Ha (T & HT & ->)%InjectError_Return_inv. rewrite Ha.
  exists T. split_and!; [done..| | |].
  - rewrite (InjectError_filed _ _ _ _ _ T) by done. rewrite Ha.
    unfold withRule; cbn. by rewrite insert_insert_eq.
  - apply lookup_insert_eq.
  - intros i T' n HT' Hn Hbefore.
    eapply invoke_first_candidate; [done..|apply lookup_insert_eq|done].
Qed.

Lemma InjectError_last_write_wins_witness :
  InjectError (Env:=testEnv) CreateAction dep3 (ObjectKeyFromObject dep3) (Some "second")
    (injectorWith None (<[ createDep3 := Some "first" ]> ∅))
  = Return (injectorWith None (<[ createDep3 := Some "second" ]> ∅)).
Proof.
  destruct (InjectError_last_write_wins (Env:=testEnv)
              CreateAction dep3 (ObjectKeyFromObject dep3)
              (Some "first") (Some "second")
              (injectorWith None ∅)
              (injectorWith None (<[ createDep3 := Some "first" ]> ∅)))
    as (T & HT & _ & Hsecond & _); [reflexivity..|].
  destruct HT as [[Hany _]|[_ HT]]; [discriminate Hany|].
  injection HT as <-. exact Hsecond.
Defined.

(** ** The operations left out, and the valid actions *)

(** C6.  [List], [DeleteAllOf] and [Status] of the decorator panic, for
    every argument, every delegate and every rule table: they never
    return, so they neither succeed nor hand the delegate's answer
    through. *)
Theorem unimplemented_operations_panic `{Env : Environment} {D : Type} `{!Client D}
    (c : ErrorInjector D) :
  (∀ ctx objs opts,
     ErrorInjector_List ctx objs opts c = Panic "implement me" ∧
     List ctx objs opts c = Panic "implement me" ∧
     ∀ r, List ctx objs opts c ≠ Return r) ∧
  (∀ ctx obj opts,
     ErrorInjector_DeleteAllOf ctx obj opts c = Panic "implement me" ∧
     DeleteAllOf ctx obj opts c = Panic "implement me" ∧
     ∀ r, DeleteAllOf ctx obj opts c ≠ Return r) ∧
  (ErrorInjector_Status c = Panic "implement me" ∧
   Status c = Panic "implement me" ∧
   ∀ r, Status c ≠ Return r).
Proof.
  split_and!; intros; repeat split; try reflexivity; intros; discriminate.
Qed.

(** C7.  [IsValid] is true for exactly the six values "get", "create",
    "delete", "update", "patch" and "*", and false for every other
    action, the empty string among them. *)
Theorem IsValid_exactly_six (a : Action) :
  (IsValid a = true ↔
   a = "get" ∨ a = "create" ∨ a = "delete" ∨ a = "update" ∨ a = "patch" ∨ a = "*") ∧
  (IsValid a = false ↔
   a ≠ "get" ∧ a ≠ "create" ∧ a ≠ "delete" ∧ a ≠ "update" ∧ a ≠ "patch" ∧ a ≠ "*") ∧
  IsValid "" = false.
Proof.
  assert (IsValid a = true ↔
          a = "get" ∨ a = "create" ∨ a = "delete" ∨ a = "update" ∨ a = "patch" ∨ a = "*")
    as Htrue.
  { unfold IsValid. cbn [existsb].
    rewrite !orb_false_r.
    destruct (String.eqb_spec a GetAction) as [->|Hget]; [naive_solver|].
    destruct (String.eqb_spec a CreateAction) as [->|Hcreate]; [naive_solver|].
    destruct (String.eqb_spec a DeleteAction) as [->|Hdelete]; [naive_solver|].
    destruct (String.eqb_spec a UpdateAction) as [->|Hupdate]; [naive_solver|].
    destruct (String.eqb_spec a PatchAction) as [->|Hpatch]; [naive_solver|].
    destruct (String.eqb_spec a AnyAction) as [->|Hany]; [naive_solver|].
    cbn. split; [discriminate|].
    intros [H|[H|[H|[H|[H|H]]]]]; exfalso;
      [by apply Hget|by apply Hcreate|by apply Hdelete|by apply Hupdate
      |by apply Hpatch|by apply Hany]. }
  split_and!; [done| |reflexivity].
  destruct (IsValid a) eqn:Hv.
  - split; [done|]. intros (? & ? & ? & ? & ? & ?).
    destruct (proj1 Htrue eq_refl) as [?|[?|[?|[?|[?|?]]]]]; congruence.
  - split; [|done]. intros _.
    split_and!; intros ->; discriminate Hv.
Qed.

(** ** The wildcard sentinels *)

(** The claim of C8 fails for an empty Unstructured object other than
    the sentinel: it has the sentinel's dynamic type and the sentinel's
    contents, but it is held at another address, so [InjectError] sends it
    to the scheme, which here does not know the type, instead of filing
    the rule under the wildcard. *)
Lemma InjectError_other_empty_Unstructured_is_resolved :
  dynType otherEmptyUnstructured = dynType AnyKind ∧
  pointee otherEmptyUnstructured = pointee AnyKind ∧
  InjectError (Env:=testEnv) CreateAction otherEmptyUnstructured AnyObject testError
    (injectorWith None ∅)
  = Panic "no kind is registered for the type".
Proof. split_and!; reflexivity. Qed.

(** C8, amended.  The wildcard sentinel is recognised by identity: the
    comparison [kind != AnyKind] holds two interface values against each
    other, which are equal exactly when they have the same dynamic type
    and hold the same pointer.  For the [AnyKind] pointer itself the
    registration files the rule under the wildcard kind and does not ask
    the scheme; every other object, also one with the same contents, is
    resolved through the scheme. *)
Theorem InjectError_AnyKind_by_identity `{Env : Environment} {D : Type} `{!Client D}
    (a : Action) (kind : Object) (I : ObjectKey) (e : error) (c : ErrorInjector D) :
  IsValid a = true →
  (interface_eqb kind AnyKind = true ↔
   dynType kind = dynType AnyKind ∧ addr kind = addr AnyKind) ∧
  (interface_eqb kind AnyKind = true →
   InjectError a kind I e c = Return (withRule a anyKindGVK I e c)) ∧
  (interface_eqb kind AnyKind = false →
   InjectError a kind I e c
   = match mustGVKForObject kind (ErrorInjector_Scheme c) with
     | Return T => Return (withRule a T I e c)
     | Panic v => Panic v
     end).
Proof.
  intros Ha. split_and!.
  - unfold interface_eqb. rewrite andb_true_iff, String.eqb_eq, N.eqb_eq. done.
  - intros Hany. rewrite (InjectError_filed _ _ _ _ _ anyKindGVK) by (left; done).
    by rewrite Ha.
  - intros Hother. unfold InjectError. rewrite Hother. cbn.
    destruct (mustGVKForObject kind (ErrorInjector_Scheme c)); cbn; [|done].
    by rewrite Ha.
Qed.

Lemma InjectError_AnyKind_by_identity_witness :
  InjectError (Env:=testEnv) CreateAction AnyKind AnyObject testError (injectorWith None ∅)
  = Return (injectorWith None
              (<[ {| action := CreateAction; kind := anyKindGVK; objectKey := AnyObject |}
                  := testError ]> ∅)).
Proof.
  apply (proj1 (proj2 (InjectError_AnyKind_by_identity (Env:=testEnv)
                         CreateAction AnyKind AnyObject testError
                         (injectorWith None ∅) eq_refl))).
  reflexivity.
Defined.

(** C9.  The identity with empty namespace and empty name is the
    wildcard [AnyObject]: registering a rule with it is registering the
    wildcard rule; its key is among the candidates of every call with the
    rule's action and type, whatever the identity of the call, so that a
    table holding just this rule answers all of them; and for a call on
    the object named "" in namespace "" the exact key and the
    identity-wildcard key are one and the same key, so no rule can hit
    the first without being the second. *)
Theorem empty_identity_is_AnyObject `{Env : Environment} {D : Type} `{!Client D} :
  {| Namespace := ""; Name := "" |} = AnyObject ∧
  (∀ a kind e (c : ErrorInjector D),
     InjectError a kind {| Namespace := ""; Name := "" |} e c
     = InjectError a kind AnyObject e c) ∧
  (∀ K T I,
     candidates K T I !! 1
     = Some {| action := K; kind := T; objectKey := {| Namespace := ""; Name := "" |} |}) ∧
  (∀ (c : ErrorInjector D) i T (e : error_value),
     mustGVKForObject (call_object i) (ErrorInjector_Scheme c) = Return T →
     errorsToReturn c
     = {[ {| action := call_action i; kind := T;
             objectKey := {| Namespace := ""; Name := "" |} |} := Some e ]} →
     invoke i c = Return (c, call_object i, Some e)) ∧
  (∀ K T,
     candidates K T {| Namespace := ""; Name := "" |} !! 0
     = candidates K T {| Namespace := ""; Name := "" |} !! 1 ∧
     {| action := K; kind := T; objectKey := {| Namespace := ""; Name := "" |} |}
     = {| action := K; kind := T; objectKey := AnyObject |}).
Proof.
  split_and!; [done..| |done].
  intros c i T e HT Htable.
  destruct (decide (call_identity i = AnyObject)) as [Hid|Hid].
  - eapply (invoke_first_candidate i c T 0 _ (Some e)); [done|reflexivity| |].
    + rewrite Htable, Hid. apply lookup_singleton_eq.
    + intros j k' Hj. lia.
  - eapply (invoke_first_candidate i c T 1 _ (Some e)); [done|reflexivity| |].
    + rewrite Htable. apply lookup_singleton_eq.
    + intros j k' Hj Hk'. assert (j = 0) as -> by lia.
      injection Hk' as <-. rewrite Htable.
      apply lookup_singleton_ne. unfold AnyObject in Hid. congruence.
Qed.

(** ** Rules that store nil *)

(** C10.  When the most specific registered candidate of a call stores
    nil and a later candidate of the same call stores an error, the
    matcher returns nil: the first hit wins also with a nil value.  The
    call is then passed to the delegate, and the less specific rule stays
    unused, although it is the rule that would have answered had the nil
    rule not been there. *)
Theorem nil_rule_masks_less_specific `{Env : Environment} {D : Type} `{!Client D}
    (c : ErrorInjector D) (i : invocation) (T : GroupVersionKind)
    (n j : nat) (kn kj : resourceActionKey) (e : error_value) :
  mustGVKForObject (call_object i) (ErrorInjector_Scheme c) = Return T →
  candidates (call_action i) T (call_identity i) !! n = Some kn →
  candidates (call_action i) T (call_identity i) !! j = Some kj →
  n < j →
  errorsToReturn c !! kn = Some None →
  errorsToReturn c !! kj = Some (Some e) →
  (∀ j' k', j' < n →
            candidates (call_action i) T (call_identity i) !! j' = Some k' →
            errorsToReturn c !! k' = None) →
  getStubbedError c (call_action i) (call_object i) (call_identity i) = Return None ∧
  invoke i c = passThrough i c ∧
  ((∀ j' k', j' < j →
             candidates (call_action i) T (call_identity i) !! j' = Some k' →
             k' ≠ kn → errorsToReturn c !! k' = None) →
   invoke i {| delegate := delegate c; errorsToReturn := delete kn (errorsToReturn c) |}
   = Return ({| delegate := delegate c; errorsToReturn := delete kn (errorsToReturn c) |},
             call_object i, Some e)).
Proof.
  intros HT Hn Hj Hlt Hnil Herr Hbefore.
  destruct (invoke_first_candidate i c T n kn None HT Hn Hnil Hbefore) as [Hget Hinv].
  split_and!; [done..|].
  intros Hbetween.
  assert (kj ≠ kn) as Hne by (intros ->; rewrite Hnil in Herr; discriminate).
  refine (proj2 (invoke_first_candidate i
                   {| delegate := delegate c; errorsToReturn := delete kn (errorsToReturn c) |}
                   T j kj (Some e) HT Hj _ _)).
  - cbn. by rewrite lookup_delete_ne.
  - intros j' k' Hj' Hk'. cbn.
    destruct (decide (k' = kn)) as [->|Hk'n].
    + apply lookup_delete_eq.
    + rewrite lookup_delete_ne by done. by eapply Hbetween.
Qed.

Lemma nil_rule_masks_less_specific_witness :
  ErrorInjector_Create (Env:=testEnv) tt dep3 []
    (injectorWith (Some "already exists")
       (<[ createDep3 := None ]>
          (<[ {| action := CreateAction; kind := deploymentGVK; objectKey := AnyObject |}
              := testError ]> ∅)))
  = Return ({| delegate := {| registry := testScheme;
                              calls := [SeenCreate dep3 []];
                              answer := Some "already exists" |};
               errorsToReturn :=
                 <[ createDep3 := None ]>
                   (<[ {| action := CreateAction; kind := deploymentGVK;
                          objectKey := AnyObject |} := testError ]> ∅) |},
            dep3, Some "already exists").
Proof.
  destruct (nil_rule_masks_less_specific (Env:=testEnv)
              (injectorWith (Some "already exists")
                 (<[ createDep3 := None ]>
                    (<[ {| action := CreateAction; kind := deploymentGVK;
                           objectKey := AnyObject |} := testError ]> ∅)))
              (CallCreate (Env:=testEnv) tt dep3 []) deploymentGVK 0 1
              createDep3
              {| action := CreateAction; kind := deploymentGVK; objectKey := AnyObject |}
              "test error")
    as (_ & Hpass & _).
  - reflexivity.
  - reflexivity.
  - reflexivity.
  - lia.
  - apply lookup_insert_eq.
  - etrans; [apply lookup_insert_ne; discriminate|apply lookup_insert_eq].
  - intros j' k' Hj'. lia.
  - etrans; [exact Hpass|reflexivity].
Defined.

(** * Further properties of the code *)

(** ** Which rules a call can hit *)

Section matching_keys.

Context `{Env : Environment}.

Lemma key_eq_iff (k : resourceActionKey) a g o :
  k = {| action := a; kind := g; objectKey := o |} ↔
  action k = a ∧ kind k = g ∧ objectKey k = o.
Proof.
  split; [by intros ->|]. destruct k; cbn. by intros (-> & -> & ->).
Qed.

Lemma elem_of_candidates k K T I :
  k ∈ candidates K T I ↔ matchesb k K T I = true.
Proof.
  unfold candidates, matchesb.
  rewrite !elem_of_cons, elem_of_nil, !key_eq_iff.
  rewrite !andb_true_iff, !orb_true_iff, !bool_decide_eq_true.
  tauto.
Qed.

(** With a concrete call the comments beside the literal are right: the
    eight keys carry 0, 1, 1, 1, 2, 2, 2 and 3 wildcards. *)
Lemma wildcards_candidates K T I :
  K ≠ AnyAction → T ≠ anyKindGVK → I ≠ AnyObject →
  wildcards <$> candidates K T I = [0; 1; 1; 1; 2; 2; 2; 3].
Proof.
  intros HK HT HI. unfold candidates, wildcards. cbn.
  rewrite !(bool_decide_eq_false_2 (K = AnyAction)) by done.
  rewrite !(bool_decide_eq_false_2 (T = anyKindGVK)) by done.
  rewrite !(bool_decide_eq_false_2 (I = AnyObject)) by done.
  rewrite !(bool_decide_eq_true_2 (AnyAction = AnyAction)) by done.
  rewrite !(bool_decide_eq_true_2 (anyKindGVK = anyKindGVK)) by done.
  rewrite !(bool_decide_eq_true_2 (AnyObject = AnyObject)) by done.
  reflexivity.
Qed.

Lemma tiers_sorted (i j a b : nat) :
  (i ≤ j)%nat →
  [0; 1; 1; 1; 2; 2; 2; 3] !! i = Some a →
  [0; 1; 1; 1; 2; 2; 2; 3] !! j = Some b →
  (a ≤ b)%nat.
Proof.
  intros Hij Hi Hj.
  do 8 (destruct i as [|i]; [injection Hi as <-;
        do 8 (destruct j as [|j]; [injection Hj as <-; lia|]); done|]).
  done.
Qed.

End matching_keys.

(** X1.  The eight keys that [getStubbedError] probes are exactly the
    keys that match the call: a key is probed if and only if its action
    is the call's or [AnyAction], its kind is the call's or the wildcard
    kind, and its identity is the call's or [AnyObject]. *)
Theorem candidates_are_the_matching_keys `{Env : Environment}
    (k : resourceActionKey) (K : Action) (T : GroupVersionKind) (I : ObjectKey) :
  k ∈ candidates K T I ↔
  (action k = K ∨ action k = AnyAction) ∧
  (kind k = T ∨ kind k = anyKindGVK) ∧
  (objectKey k = I ∨ objectKey k = AnyObject).
Proof.
  rewrite elem_of_candidates. unfold matchesb.
  rewrite !andb_true_iff, !orb_true_iff, !bool_decide_eq_true. tauto.
Qed.

Section outcomes.

Context `{Env : Environment} {D : Type} `{!Client D}.

Implicit Types (c : ErrorInjector D) (i : invocation).

Lemma passThrough_Return_inv i c c1 o err :
  passThrough i c = Return (c1, o, err) →
  ∃ d', invoke_delegate i (delegate c) = Return (d', o, err) ∧
        c1 = {| delegate := d'; errorsToReturn := errorsToReturn c |}.
Proof.
  unfold passThrough.
  destruct (invoke_delegate i (delegate c)) as [[[d' o'] err']|v]; [|done].
  intros [= <- <- <-]. by exists d'.
Qed.

Lemma probe_Some_inv (m : gmap resourceActionKey error) ks e :
  probe m ks = Some e → ∃ k, k ∈ ks ∧ m !! k = Some (Some e).
Proof.
  induction ks as [|k0 ks IH]; cbn; [done|].
  destruct (m !! k0) as [err|] eqn:Hk0.
  - intros ->. exists k0. split; [left|done].
  - intros (k & Hk & Hm)%IH. exists k. split; [by right|done].
Qed.

Lemma invoke_Return_inv i c c1 o err :
  invoke i c = Return (c1, o, err) →
  (∃ e T k,
     err = Some e ∧ c1 = c ∧ o = call_object i ∧
     mustGVKForObject (call_object i) (ErrorInjector_Scheme c) = Return T ∧
     k ∈ candidates (call_action i) T (call_identity i) ∧
     errorsToReturn c !! k = Some (Some e)) ∨
  (∃ d', invoke_delegate i (delegate c) = Return (d', o, err) ∧
         c1 = {| delegate := d'; errorsToReturn := errorsToReturn c |}).
Proof.
  rewrite invoke_unfold.
  destruct (mustGVKForObject (call_object i) (ErrorInjector_Scheme c)) as [T|v] eqn:HT;
    [|by rewrite (getStubbedError_unresolved _ _ _ _ v HT)].
  rewrite (getStubbedError_resolved _ _ _ T _ HT).
  destruct (probe (errorsToReturn c) (candidates (call_action i) T (call_identity i)))
    as [e|] eqn:Hprobe.
  - intros [= <- <- <-]. left.
    apply probe_Some_inv in Hprobe as (k & Hk & Hm).
    exists e, T, k. done.
  - intros Hpass. right. by apply passThrough_Return_inv.
Qed.

Lemma invoke_table i c c1 o err :
  invoke i c = Return (c1, o, err) → errorsToReturn c1 = errorsToReturn c.
Proof.
  intros Hinv.
  destruct (invoke_Return_inv _ _ _ _ _ Hinv)
    as [(e & T & k & _ & -> & _)|(d' & _ & ->)]; done.
Qed.

Lemma probe_singleton_in (k : resourceActionKey) (v : error) ks :
  k ∈ ks → probe (<[ k := v ]> ∅) ks = v.
Proof.
  induction ks as [|k0 ks IH]; intros Hk; [by apply elem_of_nil in Hk|].
  cbn. destruct (decide (k0 = k)) as [->|Hne].
  - by rewrite lookup_insert_eq.
  - rewrite lookup_insert_ne, lookup_empty by done.
    apply IH. apply elem_of_cons in Hk as [->|Hk]; done.
Qed.

Lemma probe_singleton_notin (k : resourceActionKey) (v : error) ks :
  k ∉ ks → probe (<[ k := v ]> ∅) ks = None.
Proof.
  intros Hk. apply probe_miss. intros k' Hk'.
  rewrite lookup_insert_ne by (by intros ->). apply lookup_empty.
Qed.

End outcomes.

(** X2.  Whatever an intercepted operation (Get, Create, Delete, Update,
    Patch) returns comes from one of two places.  Either a rule whose key
    matches the call stores exactly the returned error, which is then
    non-nil, and the injector and the caller's object are handed back as
    they were; or the delegate was called with the same arguments and
    returned this object and this error, and only the delegate's state is
    new.  In particular a nil result always is the delegate's own. *)
Theorem operation_result_provenance `{Env : Environment} {D : Type} `{!Client D}
    (i : invocation) (c c1 : ErrorInjector D) (o : Object) (err : error) :
  invoke i c = Return (c1, o, err) →
  ((∃ e T k,
      err = Some e ∧ c1 = c ∧ o = call_object i ∧
      mustGVKForObject (call_object i) (ErrorInjector_Scheme c) = Return T ∧
      matchesb k (call_action i) T (call_identity i) = true ∧
      errorsToReturn c !! k = Some (Some e)) ∨
   (∃ d', invoke_delegate i (delegate c) = Return (d', o, err) ∧
          c1 = {| delegate := d'; errorsToReturn := errorsToReturn c |})) ∧
  (err = None →
   ∃ d', invoke_delegate i (delegate c) = Return (d', o, None) ∧
         c1 = {| delegate := d'; errorsToReturn := errorsToReturn c |}).
Proof.
  intros Hinv.
  destruct (invoke_Return_inv _ _ _ _ _ Hinv)
    as [(e & T & k & -> & -> & -> & HT & Hk & Hm)|(d' & Hd & ->)].
  - split; [|done]. left. exists e, T, k.
    split_and!; [done..| |done]. by apply elem_of_candidates.
  - split; [right; by exists d'|]. intros ->. by exists d'.
Qed.

Lemma operation_result_provenance_witness :
  ∃ d', invoke_delegate (Env:=testEnv) (CallDelete (Env:=testEnv) tt dep2 [])
          (freshRecorder None)
        = Return (d', dep2, None) ∧
        {| delegate := record (SeenDelete dep2 []) (freshRecorder None);
           errorsToReturn := <[ createDep3 := testError ]> ∅ |}
        = {| delegate := d';
             errorsToReturn :=
               errorsToReturn (injectorWith None (<[ createDep3 := testError ]> ∅)) |}.
Proof.
  destruct (operation_result_provenance (Env:=testEnv)
              (CallDelete (Env:=testEnv) tt dep2 [])
              (injectorWith None (<[ createDep3 := testError ]> ∅))
              {| delegate := record (SeenDelete dep2 []) (freshRecorder None);
                 errorsToReturn := <[ createDep3 := testError ]> ∅ |}
              dep2 None) as [_ Hnil].
  - rewrite invoke_unfold.
    rewrite (getStubbedError_resolved _ _ _ deploymentGVK) by reflexivity.
    rewrite probe_miss; [reflexivity|].
    intros k Hk. apply lookup_insert_None. split; [apply lookup_empty|].
    intros <-. revert Hk. unfold candidates, createDep3.
    rewrite !elem_of_cons, elem_of_nil.
    intros [H|[H|[H|[H|[H|[H|[H|[H|[]]]]]]]]]; discriminate H.
  - exact (Hnil eq_refl).
Defined.

(** X3.  No intercepted operation changes the rule table: whether Get,
    Create, Delete, Update or Patch returns a stubbed error or the
    delegate's answer, the injector it hands back holds the table it was
    called with.  Rules are not used up and none is added; only
    [InjectError] writes the table. *)
Theorem operations_keep_the_rule_table `{Env : Environment} {D : Type} `{!Client D}
    (i : invocation) (c c1 : ErrorInjector D) (o : Object) (err : error) :
  invoke i c = Return (c1, o, err) →
  errorsToReturn c1 = errorsToReturn c.
Proof. apply invoke_table. Qed.

Lemma operations_keep_the_rule_table_witness :
  errorsToReturn
    {| delegate := record (SeenPatch cm1 "merge" ["DryRunAll"]) (freshRecorder (Some "conflict"));
       errorsToReturn := <[ createDep3 := testError ]> ∅ |}
  = errorsToReturn (injectorWith (Some "conflict") (<[ createDep3 := testError ]> ∅)).
Proof.
  apply (operations_keep_the_rule_table (Env:=testEnv)
           (CallPatch (Env:=testEnv) tt cm1 "merge" ["DryRunAll"])
           (injectorWith (Some "conflict") (<[ createDep3 := testError ]> ∅))
           _ cm1 (Some "conflict")).
  rewrite invoke_unfold.
  rewrite (getStubbedError_resolved _ _ _ configMapGVK) by reflexivity.
  rewrite probe_miss; [reflexivity|].
  intros k Hk. apply lookup_insert_None. split; [apply lookup_empty|].
  intros <-. revert Hk. unfold candidates, createDep3.
  rewrite !elem_of_cons, elem_of_nil. intros [H|[H|[H|[H|[H|[H|[H|[H|[]]]]]]]]]; discriminate H.
Defined.

(** ** What a registration leaves alone *)

Section framing.

Context `{Env : Environment} {D : Type} `{!Client D}.

Implicit Types (c : ErrorInjector D) (i : invocation).

Lemma withTableOf_same_delegate c' c :
  delegate c' = delegate c → withTableOf c' c = c'.
Proof. destruct c', c; cbn. by intros ->. Qed.

(** Two injectors around the same delegate whose tables agree on the
    keys a call probes answer the call alike. *)
Lemma invoke_retable i c c' :
  delegate c' = delegate c →
  (∀ T k, mustGVKForObject (call_object i) (ErrorInjector_Scheme c) = Return T →
          k ∈ candidates (call_action i) T (call_identity i) →
          errorsToReturn c' !! k = errorsToReturn c !! k) →
  invoke i c' = resultWithTableOf c' (invoke i c).
Proof.
  intros Hd Hagree. rewrite !invoke_unfold.
  assert (ErrorInjector_Scheme c' = ErrorInjector_Scheme c) as Hs
    by (unfold ErrorInjector_Scheme; by rewrite Hd).
  destruct (mustGVKForObject (call_object i) (ErrorInjector_Scheme c)) as [T|v] eqn:HT.
  - rewrite (getStubbedError_resolved c' _ _ T) by (by rewrite Hs).
    rewrite (getStubbedError_resolved c _ _ T) by done.
    rewrite (probe_ext (errorsToReturn c') (errorsToReturn c)) by (intros k; by apply Hagree).
    destruct (probe (errorsToReturn c) _) as [e|]; cbn.
    + by rewrite withTableOf_same_delegate.
    + unfold passThrough. rewrite Hd.
      by destruct (invoke_delegate i (delegate c)) as [[[d' o] err]|v].
  - rewrite (getStubbedError_unresolved c' _ _ _ v) by (by rewrite Hs).
    by rewrite (getStubbedError_unresolved c _ _ _ v).
Qed.

Lemma invoke_same_table i c :
  resultWithTableOf c (invoke i c) = invoke i c.
Proof. symmetry. by apply invoke_retable. Qed.

Lemma filedUnder_same_delegate kind c c' T :
  delegate c' = delegate c → filedUnder kind c T → filedUnder kind c' T.
Proof.
  unfold filedUnder, ErrorInjector_Scheme. intros ->. done.
Qed.

End framing.

(** X4.  A registration touches nothing but its own entry.  When
    [InjectError] returns, the delegate, and with it what [Scheme] and
    [RESTMapper] answer, is as before; every other key of the table holds
    what it held; and a call that the registered key does not match gets
    the answer it would have got without the registration, from the same
    source. *)
Theorem InjectError_affects_only_matching_calls
    `{Env : Environment} {D : Type} `{!Client D}
    (a : Action) (kind : Object) (I : ObjectKey) (e : error) (c c' : ErrorInjector D) :
  InjectError a kind I e c = Return c' →
  delegate c' = delegate c ∧
  ErrorInjector_Scheme c' = ErrorInjector_Scheme c ∧
  ErrorInjector_RESTMapper c' = ErrorInjector_RESTMapper c ∧
  ∃ T,
    filedUnder kind c T ∧
    (∀ k, k ≠ {| action := a; kind := T; objectKey := I |} →
          errorsToReturn c' !! k = errorsToReturn c !! k) ∧
    (∀ i,
       (∀ T', mustGVKForObject (call_object i) (ErrorInjector_Scheme c) = Return T' →
              matchesb {| action := a; kind := T; objectKey := I |}
                (call_action i) T' (call_identity i) = false) →
       invoke i c' = resultWithTableOf c' (invoke i c)).
Proof.
  intros (T & HT & Hc')%InjectError_Return_inv.
  assert (delegate c' = delegate c) as Hd by (rewrite Hc'; by destruct (IsValid a)).
  assert (∀ k, k ≠ {| action := a; kind := T; objectKey := I |} →
               errorsToReturn c' !! k = errorsToReturn c !! k) as Hother.
  { intros k Hk. rewrite Hc'. destruct (IsValid a); [|done].
    cbn. by rewrite lookup_insert_ne. }
  split_and!; [done|unfold ErrorInjector_Scheme; by rewrite Hd
              |unfold ErrorInjector_RESTMapper; by rewrite Hd|].
  exists T. split_and!; [done..|].
  intros i Hno. apply invoke_retable; [done|].
  intros T' k HT' Hk. apply Hother. intros ->.
  apply elem_of_candidates in Hk. rewrite (Hno T' HT') in Hk. discriminate.
Qed.

Lemma InjectError_affects_only_matching_calls_witness :
  ErrorInjector_Create (Env:=testEnv) tt dep2 []
    (injectorWith (Some "already exists") (<[ createDep3 := testError ]> ∅))
  = Return ({| delegate := record (SeenCreate dep2 []) (freshRecorder (Some "already exists"));
               errorsToReturn := <[ createDep3 := testError ]> ∅ |},
            dep2, Some "already exists").
Proof.
  destruct (InjectError_affects_only_matching_calls (Env:=testEnv)
              CreateAction dep3 (ObjectKeyFromObject dep3) testError
              (injectorWith (Some "already exists") ∅)
              (injectorWith (Some "already exists") (<[ createDep3 := testError ]> ∅)))
    as (_ & _ & _ & T & HT & _ & Hframe); [reflexivity|].
  destruct HT as [[Hany _]|[_ HT]]; [discriminate Hany|].
  injection HT as <-.
  etrans; [apply (Hframe (CallCreate (Env:=testEnv) tt dep2 []))|].
  - intros T' HT'. injection HT' as <-. reflexivity.
  - rewrite invoke_unfold.
    rewrite (getStubbedError_resolved _ _ _ deploymentGVK) by reflexivity.
    rewrite probe_miss by (intros k _; apply lookup_empty).
    reflexivity.
Defined.

(** X5.  Registrations under different keys do not depend on their
    order: two [InjectError] calls whose keys differ leave the same
    injector whichever runs first.  Which rule answers a call is decided
    by the keys alone, never by the order of registration. *)
Theorem InjectError_commutes_on_distinct_keys
    `{Env : Environment} {D : Type} `{!Client D}
    (a1 a2 : Action) (kind1 kind2 : Object) (I1 I2 : ObjectKey) (e1 e2 : error)
    (T1 T2 : GroupVersionKind) (c : ErrorInjector D) :
  filedUnder kind1 c T1 →
  filedUnder kind2 c T2 →
  {| action := a1; kind := T1; objectKey := I1 |}
  ≠ {| action := a2; kind := T2; objectKey := I2 |} →
  InjectError a1 kind1 I1 e1 c ≫= InjectError a2 kind2 I2 e2
  = InjectError a2 kind2 I2 e2 c ≫= InjectError a1 kind1 I1 e1.
Proof.
  intros H1 H2 Hne.
  rewrite (InjectError_filed a1 kind1 I1 e1 c T1 H1).
  rewrite (InjectError_filed a2 kind2 I2 e2 c T2 H2).
  change (InjectError a2 kind2 I2 e2 (if IsValid a1 then withRule a1 T1 I1 e1 c else c)
          = InjectError a1 kind1 I1 e1 (if IsValid a2 then withRule a2 T2 I2 e2 c else c)).
  rewrite (InjectError_filed a2 kind2 I2 e2 _ T2)
    by (eapply filedUnder_same_delegate; [|exact H2]; by destruct (IsValid a1)).
  rewrite (InjectError_filed a1 kind1 I1 e1 _ T1)
    by (eapply filedUnder_same_delegate; [|exact H1]; by destruct (IsValid a2)).
  destruct (IsValid a1), (IsValid a2); try done.
  unfold withRule; cbn. f_equal. f_equal. by apply insert_insert_ne.
Qed.

Lemma InjectError_commutes_on_distinct_keys_witness :
  InjectError (Env:=testEnv) CreateAction dep3 (ObjectKeyFromObject dep3) testError
    (injectorWith None ∅)
  ≫= InjectError (Env:=testEnv) UpdateAction cm1 (ObjectKeyFromObject cm1) None
  = InjectError (Env:=testEnv) UpdateAction cm1 (ObjectKeyFromObject cm1) None
      (injectorWith None ∅)
    ≫= InjectError (Env:=testEnv) CreateAction dep3 (ObjectKeyFromObject dep3) testError.
Proof.
  apply (InjectError_commutes_on_distinct_keys (Env:=testEnv)
           CreateAction UpdateAction dep3 cm1
           (ObjectKeyFromObject dep3) (ObjectKeyFromObject cm1) testError None
           deploymentGVK configMapGVK (injectorWith None ∅)).
  - right. split; reflexivity.
  - right. split; reflexivity.
  - discriminate.
Defined.

(** ** Specificity *)

(** X6.  For a concrete call (a concrete action, a resolved kind other
    than the wildcard kind, a non-empty identity) with at least one
    matching rule in the table, the rule whose value [getStubbedError]
    returns matches the call and has the fewest wildcards among all the
    matching rules in the table: a rule with more wildcards never
    answers while one with fewer is registered. *)
Theorem winning_rule_has_fewest_wildcards `{Env : Environment} {D : Type} `{!Client D}
    (c : ErrorInjector D) (K : Action) (obj : Object)
    (T : GroupVersionKind) (I : ObjectKey) (k0 : resourceActionKey) :
  K ≠ AnyAction → T ≠ anyKindGVK → I ≠ AnyObject →
  mustGVKForObject obj (ErrorInjector_Scheme c) = Return T →
  matchesb k0 K T I = true →
  is_Some (errorsToReturn c !! k0) →
  ∃ k err,
    matchesb k K T I = true ∧
    errorsToReturn c !! k = Some err ∧
    getStubbedError c K obj I = Return err ∧
    ∀ k', matchesb k' K T I = true →
          is_Some (errorsToReturn c !! k') →
          (wildcards k ≤ wildcards k')%nat.
Proof.
  intros HK HT HI Hres Hk0 [v0 Hv0].
  rewrite (getStubbedError_resolved c K obj T I Hres).
  destruct (probe_spec (errorsToReturn c) (candidates K T I))
    as [[_ Hnone]|(n & k & Hn & Hk & Hbefore)].
  - rewrite Hnone in Hv0 by (by apply elem_of_candidates). discriminate.
  - exists k, (probe (errorsToReturn c) (candidates K T I)).
    split_and!; [|done..|].
    + apply elem_of_candidates. by eapply list_elem_of_lookup_2.
    + intros k' Hk' [v' Hv'].
      apply elem_of_candidates, list_elem_of_lookup in Hk' as [j Hj].
      destruct (decide (j < n)) as [Hlt|Hge].
      * rewrite (Hbefore j k' Hlt Hj) in Hv'. discriminate.
      * apply (tiers_sorted n j); [lia| |].
        -- rewrite <- (wildcards_candidates K T I) by done.
           by rewrite list_lookup_fmap, Hn.
        -- rewrite <- (wildcards_candidates K T I) by done.
           by rewrite list_lookup_fmap, Hj.
Qed.

Lemma winning_rule_has_fewest_wildcards_witness :
  ∃ k err,
    matchesb k CreateAction deploymentGVK (ObjectKeyFromObject dep3) = true ∧
    errorsToReturn
      (injectorWith None
         (<[ createDep3 := testError ]>
            (<[ {| action := AnyAction; kind := anyKindGVK; objectKey := AnyObject |}
                := Some "catch all" ]> ∅))) !! k = Some err ∧
    getStubbedError
      (injectorWith None
         (<[ createDep3 := testError ]>
            (<[ {| action := AnyAction; kind := anyKindGVK; objectKey := AnyObject |}
                := Some "catch all" ]> ∅)))
      CreateAction dep3 (ObjectKeyFromObject dep3) = Return err ∧
    ∀ k', matchesb k' CreateAction deploymentGVK (ObjectKeyFromObject dep3) = true →
          is_Some (errorsToReturn
                     (injectorWith None
                        (<[ createDep3 := testError ]>
                           (<[ {| action := AnyAction; kind := anyKindGVK;
                                  objectKey := AnyObject |} := Some "catch all" ]> ∅)))
                   !! k') →
          (wildcards k ≤ wildcards k')%nat.
Proof.
  apply (winning_rule_has_fewest_wildcards (Env:=testEnv)
           (injectorWith None
              (<[ createDep3 := testError ]>
                 (<[ {| action := AnyAction; kind := anyKindGVK; objectKey := AnyObject |}
                     := Some "catch all" ]> ∅)))
           CreateAction dep3 deploymentGVK (ObjectKeyFromObject dep3)
           {| action := AnyAction; kind := anyKindGVK; objectKey := AnyObject |}).
  - discriminate.
  - discriminate.
  - discriminate.
  - reflexivity.
  - reflexivity.
  - exists (Some "catch all").
    etrans; [apply lookup_insert_ne; discriminate|apply lookup_insert_eq].
Defined.

(** ** Registration followed by calls *)

(** X7.  On a new injector that holds one rule, registered with a valid
    action and a non-nil error, an intercepted call whose type resolves
    is answered with that error, without the delegate, exactly when the
    rule's key matches the call (each part equal or wildcard); every
    other such call is passed to the delegate. *)
Theorem single_rule_fires_iff_it_matches `{Env : Environment} {D : Type} `{!Client D}
    (d : D) (a : Action) (kind : Object) (I : ObjectKey) (e : error_value)
    (c' : ErrorInjector D) :
  IsValid a = true →
  InjectError a kind I (Some e) (NewErrorInjector d) = Return c' →
  ∃ T,
    filedUnder kind (NewErrorInjector d) T ∧
    ∀ i T',
      mustGVKForObject (call_object i) (Scheme d) = Return T' →
      invoke i c'
      = if matchesb {| action := a; kind := T; objectKey := I |}
             (call_action i) T' (call_identity i)
        then Return (c', call_object i, Some e)
        else passThrough i c'.
Proof.
  intros Ha (T & HT & ->)%InjectError_Return_inv. rewrite Ha.
  exists T. split; [done|]. intros i T' HT'.
  rewrite invoke_unfold.
  rewrite (getStubbedError_resolved _ _ _ T') by done.
  unfold withRule at 1. cbn [errorsToReturn NewErrorInjector].
  destruct (matchesb _ _ _ _) eqn:Hm.
  - by rewrite (probe_singleton_in _ (Some e)) by (by apply elem_of_candidates).
  - rewrite (probe_singleton_notin _ (Some e)); [done|].
    rewrite elem_of_candidates. by rewrite Hm.
Qed.

Lemma single_rule_fires_iff_it_matches_witness :
  ErrorInjector_Get (Env:=testEnv) tt (ObjectKeyFromObject cm1) cm1
    (injectorWith None
       (<[ {| action := AnyAction; kind := anyKindGVK; objectKey := AnyObject |}
           := testError ]> ∅))
  = Return (injectorWith None
              (<[ {| action := AnyAction; kind := anyKindGVK; objectKey := AnyObject |}
                  := testError ]> ∅),
            cm1, testError).
Proof.
  destruct (single_rule_fires_iff_it_matches (Env:=testEnv)
              (freshRecorder None) AnyAction AnyKind AnyObject "test error"
              (injectorWith None
                 (<[ {| action := AnyAction; kind := anyKindGVK; objectKey := AnyObject |}
                     := testError ]> ∅)))
    as (T & HT & Hcall); [reflexivity..|].
  destruct HT as [[_ ->]|[Hother _]]; [|discriminate Hother].
  exact (Hcall (CallGet (Env:=testEnv) tt (ObjectKeyFromObject cm1) cm1)
           configMapGVK eq_refl).
Defined.

(** X8.  Registering an error for a call and then making that call
    returns the error: after [InjectError] with the action the operation
    uses, the object itself (any object but the [AnyKind] pointer), the
    identity the operation passes and a non-nil error, the operation on
    that object returns this error without reaching the delegate,
    whatever other rules the table holds. *)
Theorem registered_call_returns_the_error `{Env : Environment} {D : Type} `{!Client D}
    (i : invocation) (e : error_value) (c c' : ErrorInjector D) :
  interface_eqb (call_object i) AnyKind = false →
  InjectError (call_action i) (call_object i) (call_identity i) (Some e) c = Return c' →
  invoke i c' = Return (c', call_object i, Some e).
Proof.
  intros Hobj (T & HT & ->)%InjectError_Return_inv.
  assert (IsValid (call_action i) = true) as -> by (by destruct i).
  destruct HT as [[Hany _]|[_ HT]]; [congruence|].
  refine (proj2 (invoke_first_candidate i
                   (withRule (call_action i) T (call_identity i) (Some e) c)
                   T 0 _ (Some e) HT eq_refl _ _)).
  - apply lookup_insert_eq.
  - intros j k' Hj. lia.
Qed.

Lemma registered_call_returns_the_error_witness :
  ErrorInjector_Delete (Env:=testEnv) tt cm1 []
    (injectorWith None
       (<[ {| action := DeleteAction; kind := configMapGVK;
              objectKey := ObjectKeyFromObject cm1 |} := testError ]>
          (<[ createDep3 := None ]> ∅)))
  = Return (injectorWith None
              (<[ {| action := DeleteAction; kind := configMapGVK;
                     objectKey := ObjectKeyFromObject cm1 |} := testError ]>
                 (<[ createDep3 := None ]> ∅)),
            cm1, testError).
Proof.
  apply (registered_call_returns_the_error (Env:=testEnv)
           (CallDelete (Env:=testEnv) tt cm1 []) "test error"
           (injectorWith None (<[ createDep3 := None ]> ∅))).
  - reflexivity.
  - reflexivity.
Defined.
